(** * Artif-AI: the image-generation form of [src/App.tsx]

    A shallow embedding of the React component [App]: its four state
    variables, the handlers [generateImage], [downloadImage] and
    [handleKeyPress], the conditional rendering of the JSX tree, and the
    browser facilities the handlers call ([fetch], object URLs, the
    download link).  Asynchronous handlers are split at their [await]:
    the synchronous prefix runs when the event fires, the continuation
    runs when the environment settles the request. *)

From Stdlib Require Import NArith List String Ascii Bool Lia.
From stdpp Require Import base option list gmap.
Import ListNotations.

Local Open Scope N_scope.

(** ** JavaScript strings *)

(** A JavaScript string is a sequence of UTF-16 code units. *)
Definition code_unit := N.
Definition jsstring := list code_unit.

(** ASCII string literals of the source. *)
Definition lit (s : string) : jsstring :=
  map N_of_ascii (list_ascii_of_string s).

(** ECMAScript [WhiteSpace] and [LineTerminator] code points, the ones
    [String.prototype.trim] strips. *)
Definition is_white_space (c : code_unit) : bool :=
  (c =? 0x9) || (c =? 0xA) || (c =? 0xB) || (c =? 0xC) || (c =? 0xD)
  || (c =? 0x20) || (c =? 0xA0) || (c =? 0x1680)
  || ((0x2000 <=? c) && (c <=? 0x200A))
  || (c =? 0x2028) || (c =? 0x2029) || (c =? 0x202F) || (c =? 0x205F)
  || (c =? 0x3000) || (c =? 0xFEFF).

Fixpoint trimStart (s : jsstring) : jsstring :=
  match s with
  | [] => []
  | c :: s' => if is_white_space c then trimStart s' else s
  end.

Definition trimEnd (s : jsstring) : jsstring := rev (trimStart (rev s)).

(** [s.trim()] *)
Definition trim (s : jsstring) : jsstring := trimEnd (trimStart s).

(** Truthiness of a string: every string but the empty one. *)
Definition truthy (s : jsstring) : bool :=
  match s with [] => false | _ :: _ => true end.

(** [a || b] on strings where [a] may be [undefined]. *)
Definition or_else (a : option jsstring) (b : jsstring) : jsstring :=
  match a with
  | Some s => if truthy s then s else b
  | None => b
  end.

(** The spec's notion of an empty or whitespace-only prompt. *)
Definition whitespace_only (s : jsstring) : Prop :=
  Forall (fun c => is_white_space c = true) s.


Local Close Scope N_scope.

(** ** Data model *)

(** [interface GeneratedImage { url: string; prompt: string }] *)
Module Image.
Record GeneratedImage := mk { url : jsstring; prompt : jsstring }.
End Image.
Abbreviation GeneratedImage := Image.GeneratedImage.

(** The four [useState] cells of [App]. *)
Record AppState := {
  prompt : jsstring;
  isGenerating : bool;
  generatedImage : option GeneratedImage;
  error : jsstring
}.

(** The parsed body as [generateImage] reads it: [success] is the
    truthiness of [data.success], [imageUrl] and [prompt] are the strings
    stored into the [GeneratedImage], and [error] is [None] when
    [data.error] is [undefined].  A body that parses to [null] makes
    [data.success] throw inside the [try] block, like a body that does
    not parse: both are the rejecting case of [json] below. *)
Module Data.
Record t := mk {
  success : bool;
  imageUrl : jsstring;
  prompt : jsstring;
  error : option jsstring
}.
End Data.

(** A thrown JavaScript value, kept as its description. *)
Definition exn := jsstring.
Definition Blob := list Byte.byte.

(** What [fetch] resolves to: the two body readers the handlers call,
    each of which may reject. *)
Record Response := {
  json : exn + Data.t;
  blob : exn + Blob
}.

(** How the environment settles a [fetch]. *)
Inductive settlement :=
| Rejected (e : exn)
| Resolved (r : Response).

(** The two requests of the program. *)
Inductive request :=
| GenerateRequest (body_prompt : jsstring)
    (* POST http://localhost:5000/api/generate-image  {prompt} *)
| ImageRequest (image_url : jsstring).
    (* GET generatedImage.url *)

(** The [<a>] element built by [downloadImage]; [href] is an object URL. *)
Record anchor := { href : nat; download : jsstring }.

Record file := { file_name : jsstring; file_bytes : Blob }.

(** The component state together with the part of the browser it acts on. *)
Record World := {
  ui : AppState;
  pending : list request;        (* fetches issued and not yet settled *)
  issued : list request;         (* every fetch issued so far *)
  object_urls : gmap nat Blob;   (* URL.createObjectURL registry *)
  next_object_url : nat;
  document_body : list anchor;   (* nodes appended to document.body *)
  saved_files : list file;       (* files the browser has saved *)
  console : list (jsstring * exn)
}.

Definition init_state : AppState :=
  {| prompt := []; isGenerating := false; generatedImage := None; error := [] |}.

Definition init : World :=
  {| ui := init_state; pending := []; issued := []; object_urls := ∅;
     next_object_url := 0; document_body := []; saved_files := [];
     console := [] |}.

(** ** State setters *)

Definition with_ui (f : AppState -> AppState) (w : World) : World :=
  {| ui := f (ui w); pending := pending w; issued := issued w;
     object_urls := object_urls w; next_object_url := next_object_url w;
     document_body := document_body w; saved_files := saved_files w;
     console := console w |}.

Definition setPrompt (v : jsstring) : World -> World :=
  with_ui (fun s => {| prompt := v; isGenerating := isGenerating s;
                       generatedImage := generatedImage s; error := error s |}).

Definition setIsGenerating (b : bool) : World -> World :=
  with_ui (fun s => {| prompt := prompt s; isGenerating := b;
                       generatedImage := generatedImage s; error := error s |}).

Definition setGeneratedImage (g : GeneratedImage) : World -> World :=
  with_ui (fun s => {| prompt := prompt s; isGenerating := isGenerating s;
                       generatedImage := Some g; error := error s |}).

Definition setError (e : jsstring) : World -> World :=
  with_ui (fun s => {| prompt := prompt s; isGenerating := isGenerating s;
                       generatedImage := generatedImage s; error := e |}).

(** ** Browser facilities *)

(** [fetch(r)]: the request goes out and stays pending until settled. *)
Definition fetch (r : request) (w : World) : World :=
  {| ui := ui w; pending := pending w ++ [r]; issued := issued w ++ [r];
     object_urls := object_urls w; next_object_url := next_object_url w;
     document_body := document_body w; saved_files := saved_files w;
     console := console w |}.

(** The [i]-th pending request has settled. *)
Definition settled (i : nat) (w : World) : World :=
  {| ui := ui w; pending := delete i (pending w); issued := issued w;
     object_urls := object_urls w; next_object_url := next_object_url w;
     document_body := document_body w; saved_files := saved_files w;
     console := console w |}.

Definition console_error (label : jsstring) (e : exn) (w : World) : World :=
  {| ui := ui w; pending := pending w; issued := issued w;
     object_urls := object_urls w; next_object_url := next_object_url w;
     document_body := document_body w; saved_files := saved_files w;
     console := console w ++ [(label, e)] |}.

(** [window.URL.createObjectURL(blob)] *)
Definition createObjectURL (b : Blob) (w : World) : nat * World :=
  (next_object_url w,
   {| ui := ui w; pending := pending w; issued := issued w;
      object_urls := <[next_object_url w := b]> (object_urls w);
      next_object_url := S (next_object_url w);
      document_body := document_body w; saved_files := saved_files w;
      console := console w |}).

(** [window.URL.revokeObjectURL(url)] *)
Definition revokeObjectURL (u : nat) (w : World) : World :=
  {| ui := ui w; pending := pending w; issued := issued w;
     object_urls := delete u (object_urls w);
     next_object_url := next_object_url w;
     document_body := document_body w; saved_files := saved_files w;
     console := console w |}.

Definition with_body (f : list anchor -> list anchor) (w : World) : World :=
  {| ui := ui w; pending := pending w; issued := issued w;
     object_urls := object_urls w; next_object_url := next_object_url w;
     document_body := f (document_body w); saved_files := saved_files w;
     console := console w |}.

Definition anchor_eqb (a b : anchor) : bool :=
  Nat.eqb (href a) (href b) && bool_decide (download a = download b).

(** [document.body.appendChild(link)] and [document.body.removeChild(link)] *)
Definition appendChild (l : anchor) : World -> World :=
  with_body (fun b => b ++ [l]).
Definition removeChild (l : anchor) : World -> World :=
  with_body (filter (fun a => anchor_eqb a l = false)).

(** [link.click()] on an anchor with a [download] attribute: the browser
    saves what the object URL denotes under the attribute's name. *)
Definition click (l : anchor) (w : World) : World :=
  match object_urls w !! href l with
  | Some b =>
      {| ui := ui w; pending := pending w; issued := issued w;
         object_urls := object_urls w; next_object_url := next_object_url w;
         document_body := document_body w;
         saved_files := saved_files w ++ [{| file_name := download l; file_bytes := b |}];
         console := console w |}
  | None => w
  end.

(** ** Exceptions: [try], [catch], [finally] and [await] *)

(** The result of running a block: it ends normally or throws, in
    either case with the world as the block left it. *)
Inductive completion :=
| Normal (w : World)
| Throw (e : exn) (w : World).

(** [await p; k]: a rejected promise throws at the [await]. *)
Definition await {A : Type} (p : exn + A) (k : A -> World -> completion)
  (w : World) : completion :=
  match p with
  | inl e => Throw e w
  | inr a => k a w
  end.

Definition try_catch (body : World -> completion) (handler : exn -> World -> World)
  (w : World) : World :=
  match body w with
  | Normal w' => w'
  | Throw e w' => handler e w'
  end.

Definition try_catch_finally (body : World -> completion)
  (handler : exn -> World -> World) (finalizer : World -> World)
  (w : World) : World :=
  finalizer (try_catch body handler w).

(** The promise of [fetch] as the environment settles it. *)
Definition fetched (s : settlement) : exn + Response :=
  match s with
  | Rejected e => inl e
  | Resolved r => inr r
  end.

(** ** The handlers of [App] *)

(** [generateImage], up to its first [await]. *)
Definition generateImage (w : World) : World :=
  if negb (truthy (trim (prompt (ui w)))) then
    setError (lit "Please enter a prompt") w
  else
    fetch (GenerateRequest (trim (prompt (ui w))))
      (setError [] (setIsGenerating true w)).

(** [generateImage], from the settlement of its [fetch] to its end. *)
Definition generateImage_resume (s : settlement) : World -> World :=
  try_catch_finally
    (await (fetched s) (fun response =>
     await (json response) (fun data w =>
       if Data.success data then
         Normal (setGeneratedImage
                   {| Image.url := Data.imageUrl data;
                      Image.prompt := Data.prompt data |} w)
       else
         Normal (setError (or_else (Data.error data)
                                   (lit "Failed to generate image")) w))))
    (fun err w =>
       console_error (lit "Error:") err
         (setError (lit "Network error. Please make sure the server is running.") w))
    (setIsGenerating false).

(** [downloadImage], up to its first [await]. *)
Definition downloadImage (w : World) : World :=
  match generatedImage (ui w) with
  | None => w
  | Some g => fetch (ImageRequest (Image.url g)) w
  end.

(** [downloadImage], from the settlement of its [fetch] to its end. *)
Definition downloadImage_resume (s : settlement) : World -> World :=
  try_catch
    (await (fetched s) (fun response =>
     await (blob response) (fun b w =>
       let (url, w1) := createObjectURL b w in
       let link := {| href := url; download := lit "generated-image.png" |} in
       Normal (revokeObjectURL url
                 (removeChild link (click link (appendChild link w1)))))))
    (fun err w =>
       setError (lit "Failed to download image")
         (console_error (lit "Error downloading image:") err w)).

(** [handleKeyPress] *)
Definition handleKeyPress (key : jsstring) (w : World) : World :=
  if bool_decide (key = lit "Enter") && negb (isGenerating (ui w)) then
    generateImage w
  else w.

(** ** Rendering *)

(** The parts of the JSX tree that depend on the state. *)
Record View := {
  textarea_disabled : bool;
  generate_disabled : bool;
  error_box : option jsstring;
  result_panel : option GeneratedImage;   (* holds the download button *)
  loading_panel : bool
}.

Definition render (s : AppState) : View :=
  {| textarea_disabled := isGenerating s;
     generate_disabled := isGenerating s || negb (truthy (trim (prompt s)));
     error_box := if truthy (error s) then Some (error s) else None;
     result_panel := generatedImage s;
     loading_panel := isGenerating s && negb (bool_decide (is_Some (generatedImage s))) |}.

(** ** Events *)

(** User events on the rendered controls, and settlements of pending
    requests by the environment. *)
Inductive event :=
| Change (value : jsstring)
| KeyPress (key : jsstring)
| ClickGenerate
| ClickDownload
| Settle (i : nat) (s : settlement).

(** One event; [None] when the control is disabled or not rendered, or
    when no such request is pending. *)
Definition step (w : World) (e : event) : option World :=
  let v := render (ui w) in
  match e with
  | Change value =>
      if textarea_disabled v then None else Some (setPrompt value w)
  | KeyPress key =>
      if textarea_disabled v then None else Some (handleKeyPress key w)
  | ClickGenerate =>
      if generate_disabled v then None else Some (generateImage w)
  | ClickDownload =>
      match result_panel v with
      | Some _ => Some (downloadImage w)
      | None => None
      end
  | Settle i s =>
      match pending w !! i with
      | Some (GenerateRequest _) => Some (generateImage_resume s (settled i w))
      | Some (ImageRequest _) => Some (downloadImage_resume s (settled i w))
      | None => None
      end
  end.

Fixpoint exec (w : World) (es : list event) : option World :=
  match es with
  | [] => Some w
  | e :: es' =>
      match step w e with
      | Some w' => exec w' es'
      | None => None
      end
  end.

Definition reachable (w : World) : Prop :=
  exists es, exec init es = Some w.

(** ** Outcomes of a request, as the handlers see them *)

(** The generation succeeded: the body parsed and [success] is truthy. *)
Definition generation_succeeds (s : settlement) : option Data.t :=
  match s with
  | Resolved {| json := inr d |} => if Data.success d then Some d else None
  | _ => None
  end.

(** The text [generateImage] shows for a failed generation. *)
Definition generation_failure_text (s : settlement) : jsstring :=
  match s with
  | Resolved {| json := inr d |} =>
      or_else (Data.error d) (lit "Failed to generate image")
  | _ => lit "Network error. Please make sure the server is running."
  end.

(** The download got its bytes. *)
Definition download_succeeds (s : settlement) : option Blob :=
  match s with
  | Resolved {| blob := inr b |} => Some b
  | _ => None
  end.

Definition is_generation (r : request) : bool :=
  match r with GenerateRequest _ => true | ImageRequest _ => false end.

(** Number of generation requests still in flight. *)
Definition outstanding_generations (w : World) : nat :=
  length (List.filter is_generation (pending w)).

(** The event settles a generation request. *)
Definition settles_generation (w : World) (e : event) : bool :=
  match e with
  | Settle i _ =>
      match pending w !! i with
      | Some (GenerateRequest _) => true
      | _ => false
      end
  | _ => false
  end.

(** The event settles a download that failed. *)
Definition fails_download (w : World) (e : event) : bool :=
  match e with
  | Settle i s =>
      match pending w !! i, download_succeeds s with
      | Some (ImageRequest _), None => true
      | _, _ => false
      end
  | _ => false
  end.

(** No event of the run [es] from [w] is [bad] in the world it meets. *)
Fixpoint never (bad : World -> event -> bool) (w : World) (es : list event) : bool :=
  match es with
  | [] => true
  | e :: es' =>
      negb (bad w e) &&
      match step w e with
      | Some w' => never bad w' es'
      | None => true
      end
  end.

(** What holds of every reachable world. *)
Definition invariant (w : World) : Prop :=
  outstanding_generations w = (if isGenerating (ui w) then 1 else 0) /\
  (generatedImage (ui w) = None ->
   Forall (fun r => is_generation r = true) (pending w)) /\
  (isGenerating (ui w) = true -> generatedImage (ui w) = None -> error (ui w) = []) /\
  Forall (fun f => file_name f = lit "generated-image.png") (saved_files w).

(** ** What the user sees *)

(** The three rendering states: the result panel, the loading panel, or
    neither of them (the form alone, with or without the error box). *)
Definition shows_result (v : View) : bool :=
  match result_panel v with Some _ => true | None => false end.
Definition shows_loading (v : View) : bool := loading_panel v.
Definition shows_idle (v : View) : bool :=
  negb (shows_result v) && negb (shows_loading v).
Definition shows_error (v : View) : bool :=
  match error_box v with Some _ => true | None => false end.

Definition count (b : bool) : nat := if b then 1 else 0.

(** ** Kinds of error text *)

Inductive error_kind :=
| EmptyPromptValidation
| RequestFailure.

(** The error text an event brings up, with its kind: the validation
    message when a generation is asked for with a blank prompt, a failure
    message when a request settles without success. *)
Definition surfaced (w : World) (e : event) : option (error_kind * jsstring) :=
  let validation :=
    if truthy (trim (prompt (ui w))) then None
    else Some (EmptyPromptValidation, lit "Please enter a prompt") in
  match e with
  | Change _ | ClickDownload => None
  | ClickGenerate => validation
  | KeyPress key => if bool_decide (key = lit "Enter") then validation else None
  | Settle i s =>
      match pending w !! i with
      | Some (GenerateRequest _) =>
          match generation_succeeds s with
          | Some _ => None
          | None => Some (RequestFailure, generation_failure_text s)
          end
      | Some (ImageRequest _) =>
          match download_succeeds s with
          | Some _ => None
          | None => Some (RequestFailure, lit "Failed to download image")
          end
      | None => None
      end
  end.

(** ** Sample responses and sessions *)

Definition cat_data : Data.t :=
  Data.mk true (lit "http://localhost:5000/images/1.png") (lit "a cat") None.
Definition cat_image : GeneratedImage :=
  Image.mk (lit "http://localhost:5000/images/1.png") (lit "a cat").
Definition png : Blob := [Byte.x89; Byte.x50; Byte.x4e; Byte.x47].

Definition generated : settlement :=
  Resolved {| json := inr cat_data; blob := inr [] |}.
Definition refused : settlement :=
  Resolved {| json := inr (Data.mk false [] [] None); blob := inr [] |}.
Definition unreachable_server : settlement :=
  Rejected (lit "TypeError: Failed to fetch").
Definition image_bytes : settlement :=
  Resolved {| json := inl (lit "SyntaxError"); blob := inr png |}.

(** Type a prompt, generate, and get an image back. *)
Definition first_image : list event :=
  [Change (lit "a cat"); ClickGenerate; Settle 0 generated].

(** With that image on screen, generate again and click download while
    the request is in flight. *)
Definition download_during_generation : list event :=
  first_image ++ [ClickGenerate; ClickDownload].

Definition after (es : list event) : World :=
  match exec init es with Some w => w | None => init end.

(** The first image on screen and only blanks in the prompt. *)
Definition blank_world : World :=
  setPrompt [32; 9; 10; 160]%N (after first_image).

(** The first image on screen and a new prompt typed. *)
Definition dog_world : World :=
  setPrompt (lit "a dog") (after first_image).

(** ** Logging and housekeeping *)

(** What a settlement makes [generateImage] catch: a rejected [fetch]
    or a rejected [response.json()]. *)
Definition generation_throws (s : settlement) : option exn :=
  match s with
  | Rejected e => Some e
  | Resolved {| json := inl e |} => Some e
  | Resolved {| json := inr _ |} => None
  end.

(** What a settlement makes [downloadImage] catch: a rejected [fetch]
    or a rejected [response.blob()]. *)
Definition download_throws (s : settlement) : option exn :=
  match s with
  | Rejected e => Some e
  | Resolved {| blob := inl e |} => Some e
  | Resolved {| blob := inr _ |} => None
  end.

(** The [console.error] lines an event writes. *)
Definition logged (w : World) (e : event) : list (jsstring * exn) :=
  match e with
  | Settle i s =>
      match pending w !! i with
      | Some (GenerateRequest _) =>
          match generation_throws s with
          | Some x => [(lit "Error:", x)]
          | None => []
          end
      | Some (ImageRequest _) =>
          match download_throws s with
          | Some x => [(lit "Error downloading image:", x)]
          | None => []
          end
      | None => []
      end
  | _ => []
  end.

(** What the handlers leave behind them in the browser and in the
    request queue. *)
Definition housekeeping (w : World) : Prop :=
  object_urls w = ∅ /\
  document_body w = [] /\
  (generatedImage (ui w) = None ->
   Forall (fun r => is_generation r = true) (issued w) /\ saved_files w = []) /\
  Forall (fun r => match r with
                   | GenerateRequest p => p = trim (prompt (ui w))
                   | ImageRequest _ => True
                   end) (pending w).

(** The event is a settlement by the environment, not a user event. *)
Definition is_settlement (e : event) : bool :=
  match e with Settle _ _ => true | _ => false end.

(** A choice of the environment: which pending request settles, and how. *)
Definition settle_of (c : nat * settlement) : event := Settle (fst c) (snd c).

(** Each choice names a request that is pending when its turn comes,
    [n] requests being pending at the start. *)
Fixpoint in_range (n : nat) (cs : list (nat * settlement)) : bool :=
  match cs with
  | [] => true
  | c :: cs' => (fst c <? n)%nat && in_range (pred n) cs'
  end.

(** The two requests left pending by [download_during_generation],
    settled newest first and with different outcomes. *)
Definition mixed_settlements : list event :=
  [Settle 1 image_bytes; Settle 0 refused].

(** A prompt typed with blanks around it, nothing generated yet. *)
Definition padded_world : World :=
  setPrompt (lit "  a dog ") init.

(** ** Trimming *)

Section TrimFacts.

Lemma trimStart_blank (s : jsstring) :
  whitespace_only s -> trimStart s = [].
Proof.
  induction 1 as [|c s Hc _ IH]; simpl; [reflexivity|].
  now rewrite Hc.
Qed.

Lemma trimStart_nil_inv (s : jsstring) :
  trimStart s = [] -> whitespace_only s.
Proof.
  induction s as [|c s IH]; simpl; intros H; [constructor|].
  destruct (is_white_space c) eqn:Hc; [|discriminate].
  constructor; [exact Hc | exact (IH H)].
Qed.

Lemma trim_blank (s : jsstring) : whitespace_only s -> trim s = [].
Proof.
  intros H. unfold trim, trimEnd.
  rewrite (trimStart_blank s H). reflexivity.
Qed.

Lemma trimStart_head (s t : jsstring) (c : code_unit) :
  trimStart s = c :: t -> is_white_space c = false.
Proof.
  induction s as [|x l IH]; simpl; [discriminate|].
  destruct (is_white_space x) eqn:Hx; [exact IH|].
  intros E. injection E as <- _. exact Hx.
Qed.

Lemma trim_nil_inv (s : jsstring) : trim s = [] -> whitespace_only s.
Proof.
  unfold trim, trimEnd. intros H.
  apply trimStart_nil_inv.
  destruct (trimStart s) as [|c t] eqn:E; [reflexivity|].
  exfalso.
  assert (Hr : trimStart (rev (c :: t)) = []).
  { apply (f_equal (@rev code_unit)) in H.
    rewrite rev_involutive in H. exact H. }
  apply trimStart_nil_inv in Hr.
  assert (Hc : is_white_space c = true).
  { unfold whitespace_only in Hr. rewrite Forall_forall in Hr.
    apply Hr. apply list_elem_of_In. rewrite <- in_rev. now left. }
  apply trimStart_head in E. congruence.
Qed.

Lemma truthy_trim_false (s : jsstring) :
  truthy (trim s) = false <-> whitespace_only s.
Proof.
  split.
  - intros H. apply trim_nil_inv. destruct (trim s); [reflexivity|discriminate].
  - intros H. now rewrite trim_blank.
Qed.

End TrimFacts.

(** ** What each handler does to the state *)

Section Handlers.

Variable w : World.

Lemma generateImage_blank :
  truthy (trim (prompt (ui w))) = false ->
  generateImage w = setError (lit "Please enter a prompt") w.
Proof. unfold generateImage. now intros ->. Qed.

Lemma generateImage_go :
  truthy (trim (prompt (ui w))) = true ->
  generateImage w =
    fetch (GenerateRequest (trim (prompt (ui w)))) (setError [] (setIsGenerating true w)).
Proof. unfold generateImage. now intros ->. Qed.

Lemma generateImage_resume_ok (s : settlement) (d : Data.t) :
  generation_succeeds s = Some d ->
  generateImage_resume s w =
    setIsGenerating false
      (setGeneratedImage {| Image.url := Data.imageUrl d; Image.prompt := Data.prompt d |} w).
Proof.
  destruct s as [e|[[e|d'] b]]; simpl; try discriminate.
  unfold generateImage_resume, try_catch_finally, try_catch; simpl.
  destruct (Data.success d') eqn:E; [|discriminate].
  intros [= ->]. reflexivity.
Qed.

Lemma generateImage_resume_ko (s : settlement) :
  generation_succeeds s = None ->
  ui (generateImage_resume s w) =
    ui (setIsGenerating false (setError (generation_failure_text s) w)).
Proof.
  destruct s as [e|[[e|d] b]]; simpl; try reflexivity.
  unfold generateImage_resume, try_catch_finally, try_catch; simpl.
  destruct (Data.success d); [discriminate|reflexivity].
Qed.

Lemma downloadImage_resume_ok (s : settlement) (b : Blob) :
  download_succeeds s = Some b ->
  ui (downloadImage_resume s w) = ui w /\
  saved_files (downloadImage_resume s w) =
    saved_files w ++ [{| file_name := lit "generated-image.png"; file_bytes := b |}].
Proof.
  destruct s as [e|[j [e|b']]]; simpl; try discriminate.
  intros [= ->].
  unfold downloadImage_resume, try_catch; simpl.
  unfold click; simpl. rewrite lookup_insert_eq. simpl. auto.
Qed.

Lemma downloadImage_resume_ko (s : settlement) :
  download_succeeds s = None ->
  ui (downloadImage_resume s w) = ui (setError (lit "Failed to download image") w) /\
  saved_files (downloadImage_resume s w) = saved_files w.
Proof.
  destruct s as [e|[j [e|b']]]; simpl; try discriminate; auto.
Qed.

Lemma generateImage_resume_frame (s : settlement) :
  pending (generateImage_resume s w) = pending w /\
  issued (generateImage_resume s w) = issued w /\
  saved_files (generateImage_resume s w) = saved_files w.
Proof.
  destruct s as [e|[[e|d] b]]; simpl; auto.
  unfold generateImage_resume, try_catch_finally, try_catch; simpl.
  destruct (Data.success d); auto.
Qed.

Lemma downloadImage_resume_frame (s : settlement) :
  pending (downloadImage_resume s w) = pending w /\
  issued (downloadImage_resume s w) = issued w.
Proof.
  destruct s as [e|[j [e|b]]]; simpl; auto.
  unfold downloadImage_resume, try_catch, click; simpl.
  rewrite lookup_insert_eq. auto.
Qed.

End Handlers.

(** ** While a generation is in flight *)

Section InFlight.

(** What one event can do while [isGenerating] holds and the event is
    not the settlement of a generation. *)
Lemma step_in_flight (w w' : World) (e : event) :
  isGenerating (ui w) = true ->
  settles_generation w e = false ->
  step w e = Some w' ->
  isGenerating (ui w') = true /\
  prompt (ui w') = prompt (ui w) /\
  generatedImage (ui w') = generatedImage (ui w) /\
  (fails_download w e = false -> error (ui w') = error (ui w)) /\
  List.filter is_generation (issued w') = List.filter is_generation (issued w).
Proof.
  intros Hg Hs.
  destruct e as [v|k| | |i s]; simpl in *; rewrite ?Hg; simpl; try discriminate.
  - unfold downloadImage.
    destruct (generatedImage (ui w)) as [g|] eqn:Hi; [|discriminate].
    intros [= <-]; simpl. rewrite List.filter_app; simpl.
    rewrite app_nil_r. repeat split; auto.
  - destruct (pending w !! i) as [[p|u]|]; try discriminate.
    intros [= <-].
    destruct (downloadImage_resume_frame (settled i w) s) as [_ ->].
    destruct (download_succeeds s) as [b|] eqn:Hd.
    + destruct (downloadImage_resume_ok (settled i w) s b Hd) as [-> _].
      simpl. repeat split; auto.
    + destruct (downloadImage_resume_ko (settled i w) s Hd) as [-> _].
      simpl. repeat split; auto; discriminate.
Qed.

(** The same along a whole run of such events. *)
Lemma exec_in_flight (es : list event) : forall w w' : World,
  isGenerating (ui w) = true ->
  never settles_generation w es = true ->
  exec w es = Some w' ->
  isGenerating (ui w') = true /\
  prompt (ui w') = prompt (ui w) /\
  generatedImage (ui w') = generatedImage (ui w) /\
  (never fails_download w es = true -> error (ui w') = error (ui w)) /\
  List.filter is_generation (issued w') = List.filter is_generation (issued w).
Proof.
  induction es as [|e es IH]; intros w w' Hg Hn He; simpl in *.
  - injection He as <-. auto.
  - destruct (step w e) as [w1|] eqn:Hstep; [|discriminate].
    apply andb_true_iff in Hn as [Hs Hn]. apply negb_true_iff in Hs.
    destruct (step_in_flight w w1 e Hg Hs Hstep) as (G1 & P1 & I1 & E1 & R1).
    destruct (IH w1 w' G1 Hn He) as (G2 & P2 & I2 & E2 & R2).
    repeat split; try congruence.
    intros Hf. apply andb_true_iff in Hf as [Hf1 Hf2].
    apply negb_true_iff in Hf1. rewrite (E2 Hf2). auto.
Qed.

End InFlight.

Section InFlightError.

(** A download that fails sets the error to its message. *)
Lemma step_fails_download (w w' : World) (e : event) :
  fails_download w e = true ->
  step w e = Some w' ->
  error (ui w') = lit "Failed to download image".
Proof.
  destruct e as [v|k| | |i s]; simpl; try discriminate.
  destruct (pending w !! i) as [[p|u]|]; try discriminate.
  destruct (download_succeeds s) eqn:Hd; [discriminate|].
  intros _ [= <-].
  now destruct (downloadImage_resume_ko (settled i w) s Hd) as [-> _].
Qed.

(** The error at the end of a run of in-flight events: what it was at
    the start, or the message of a download that failed on the way. *)
Lemma exec_in_flight_error (es : list event) : forall w w' : World,
  isGenerating (ui w) = true ->
  never settles_generation w es = true ->
  exec w es = Some w' ->
  error (ui w') =
    if never fails_download w es then error (ui w)
    else lit "Failed to download image".
Proof.
  induction es as [|e es IH]; intros w w' Hg Hn He; simpl in *.
  - now injection He as <-.
  - destruct (step w e) as [w1|] eqn:Hstep; [|discriminate].
    apply andb_true_iff in Hn as [Hs Hn]. apply negb_true_iff in Hs.
    destruct (step_in_flight w w1 e Hg Hs Hstep) as (G1 & _ & _ & E1 & _).
    rewrite (IH w1 w' G1 Hn He).
    destruct (fails_download w e) eqn:Hf; simpl.
    + rewrite (step_fails_download w w1 e Hf Hstep).
      now destruct (never fails_download w1 es).
    + now rewrite (E1 eq_refl).
Qed.

End InFlightError.

(** ** Invariants of the reachable worlds *)

Section Invariants.

Lemma filter_delete_length (l : list request) : forall (i : nat) (r : request),
  l !! i = Some r ->
  length (List.filter is_generation l) =
    (if is_generation r then 1 else 0) + length (List.filter is_generation (delete i l)).
Proof.
  induction l as [|x l IH]; intros [|i] r H; simpl in *; try discriminate.
  - injection H as ->. destruct (is_generation r); reflexivity.
  - pose proof (IH i r H) as E.
    destruct (is_generation x), (is_generation r); simpl in *; lia.
Qed.

Lemma invariant_init : invariant init.
Proof. repeat split; simpl; auto; discriminate. Qed.

Lemma invariant_generateImage (w : World) :
  isGenerating (ui w) = false -> invariant w -> invariant (generateImage w).
Proof.
  intros Hg (I1 & I2 & I3 & I4). unfold generateImage.
  destruct (truthy (trim (prompt (ui w)))); simpl.
  - unfold invariant, outstanding_generations in *; simpl.
    rewrite List.filter_app, length_app, I1, Hg; simpl.
    repeat split; auto.
    intros Hn. apply Forall_app. split; auto.
  - unfold invariant, outstanding_generations in *; simpl.
    rewrite Hg in *. repeat split; auto; discriminate.
Qed.

Lemma step_invariant (w w' : World) (e : event) :
  invariant w -> step w e = Some w' -> invariant w'.
Proof.
  intros Hinv. pose proof Hinv as (I1 & I2 & I3 & I4).
  destruct e as [v|k| | |i s]; simpl.
  - destruct (isGenerating (ui w)) eqn:Hg; [discriminate|].
    intros [= <-]. unfold invariant, outstanding_generations in *; simpl.
    rewrite Hg in *. repeat split; auto; discriminate.
  - destruct (isGenerating (ui w)) eqn:Hg; [discriminate|].
    intros [= <-]. unfold handleKeyPress. rewrite Hg; simpl.
    destruct (bool_decide (k = lit "Enter")); simpl; auto.
    now apply invariant_generateImage.
  - destruct (isGenerating (ui w)) eqn:Hg; [discriminate|]. simpl.
    destruct (negb (truthy (trim (prompt (ui w))))); [discriminate|].
    intros [= <-]. now apply invariant_generateImage.
  - unfold downloadImage.
    destruct (generatedImage (ui w)) as [g|] eqn:Hi; [|discriminate].
    intros [= <-]. unfold invariant, outstanding_generations in *; simpl.
    rewrite List.filter_app, length_app, Hi; simpl.
    repeat split; auto; try discriminate. lia.
  - destruct (pending w !! i) as [[p|u]|] eqn:Hp; try discriminate; intros [= <-].
    + pose proof (filter_delete_length _ _ _ Hp) as Hc. simpl in Hc.
      unfold outstanding_generations in I1.
      assert (Hd : length (List.filter is_generation (delete i (pending w))) = 0).
      { destruct (isGenerating (ui w)); lia. }
      destruct (generation_succeeds s) as [d|] eqn:Hs.
      * rewrite (generateImage_resume_ok _ s d Hs).
        unfold invariant, outstanding_generations; simpl.
        repeat split; auto; discriminate.
      * pose proof (generateImage_resume_ko (settled i w) s Hs) as Hu.
        destruct (generateImage_resume_frame (settled i w) s) as (Hpe & _ & Hsa).
        unfold invariant, outstanding_generations. rewrite Hu, Hpe, Hsa; simpl.
        repeat split; auto; try discriminate.
        intros Hn. apply Forall_delete. auto.
    + pose proof (filter_delete_length _ _ _ Hp) as Hc. simpl in Hc.
      unfold outstanding_generations in I1.
      destruct (generatedImage (ui w)) as [g|] eqn:Hi.
      2:{ specialize (I2 eq_refl). rewrite Forall_lookup in I2.
          specialize (I2 _ _ Hp). discriminate. }
      destruct (downloadImage_resume_frame (settled i w) s) as [Hpe _].
      destruct (download_succeeds s) as [b|] eqn:Hs.
      * destruct (downloadImage_resume_ok (settled i w) s b Hs) as [Hu Hsa].
        unfold invariant, outstanding_generations. rewrite Hu, Hpe, Hsa; simpl.
        rewrite Hi. repeat split; auto; try discriminate; try lia.
        apply Forall_app. split; auto.
      * destruct (downloadImage_resume_ko (settled i w) s Hs) as [Hu Hsa].
        unfold invariant, outstanding_generations. rewrite Hu, Hpe, Hsa; simpl.
        rewrite Hi. repeat split; auto; try discriminate; try lia.
Qed.

Lemma exec_invariant (es : list event) : forall w w' : World,
  invariant w -> exec w es = Some w' -> invariant w'.
Proof.
  induction es as [|e es IH]; intros w w' Hinv; simpl.
  - now intros [= <-].
  - destruct (step w e) as [w1|] eqn:Hs; [|discriminate].
    apply IH. exact (step_invariant _ _ _ Hinv Hs).
Qed.

Lemma reachable_invariant (w : World) : reachable w -> invariant w.
Proof. intros [es H]. exact (exec_invariant es _ _ invariant_init H). Qed.

End Invariants.

(** ** Properties of the specification *)

(** C1. With a prompt that is empty or made of whitespace only,
    [generateImage] issues no request, leaves the generated image as it
    is, and sets the error to the validation message. *)
Theorem generateImage_blank_prompt (w : World) :
  whitespace_only (prompt (ui w)) ->
  issued (generateImage w) = issued w /\
  pending (generateImage w) = pending w /\
  generatedImage (ui (generateImage w)) = generatedImage (ui w) /\
  error (ui (generateImage w)) = lit "Please enter a prompt".
Proof.
  intros H. apply truthy_trim_false in H.
  rewrite (generateImage_blank w H). simpl. auto.
Qed.

Lemma generateImage_blank_prompt_witness :
  whitespace_only (prompt (ui blank_world)) /\
  issued (generateImage blank_world) = issued blank_world /\
  pending (generateImage blank_world) = pending blank_world /\
  generatedImage (ui (generateImage blank_world)) = generatedImage (ui blank_world) /\
  error (ui (generateImage blank_world)) = lit "Please enter a prompt".
Proof.
  split; [repeat constructor |].
  apply (generateImage_blank_prompt blank_world). repeat constructor.
Defined.

(** C2, as stated, fails: a download that fails while the generation is
    in flight sets the error, and the successful response does not clear
    it. *)
Lemma generate_success_keeps_download_error :
  exists w1 w2 : World,
    exec init (download_during_generation ++ [Settle 1 unreachable_server]) = Some w1 /\
    pending w1 !! 0 = Some (GenerateRequest (lit "a cat")) /\
    generation_succeeds generated = Some cat_data /\
    step w1 (Settle 0 generated) = Some w2 /\
    generatedImage (ui w2) = Some cat_image /\
    error (ui w2) = lit "Failed to download image" /\
    error (ui w2) <> [].
Proof.
  do 2 eexists.
  split; [vm_compute; reflexivity|].
  split; [reflexivity|].
  split; [reflexivity|].
  split; [vm_compute; reflexivity|].
  split; [reflexivity|].
  split; [reflexivity|discriminate].
Qed.

(** C2, amended. A run of [generateImage] whose response parses to JSON
    with [success] true replaces the generated image by the response's
    [{url: imageUrl, prompt: prompt}], whatever was there before.  The
    run clears the error when it starts and the response leaves the error
    alone: when the run completes the error is empty if no download
    failed while the request was in flight, and it is that download's
    'Failed to download image' otherwise.  Here [es] are the events
    between the start of the run and the settlement of its request. *)
Theorem generate_success_replaces_result
  (w w1 : World) (es : list event) (i : nat) (p : jsstring)
  (s : settlement) (d : Data.t) :
  truthy (trim (prompt (ui w))) = true ->
  exec (generateImage w) es = Some w1 ->
  never settles_generation (generateImage w) es = true ->
  pending w1 !! i = Some (GenerateRequest p) ->
  generation_succeeds s = Some d ->
  exists w2 : World,
    step w1 (Settle i s) = Some w2 /\
    generatedImage (ui w2) =
      Some {| Image.url := Data.imageUrl d; Image.prompt := Data.prompt d |} /\
    (never fails_download (generateImage w) es = true -> error (ui w2) = []) /\
    (never fails_download (generateImage w) es = false ->
     error (ui w2) = lit "Failed to download image").
Proof.
  intros Hp He Hn Hi Hs.
  rewrite (generateImage_go w Hp) in He, Hn |- *.
  pose proof (fun H => exec_in_flight_error es _ w1 H Hn He) as X.
  specialize (X eq_refl). simpl in X.
  eexists. split; [simpl; rewrite Hi; reflexivity|].
  rewrite (generateImage_resume_ok _ s d Hs). simpl.
  split; [reflexivity|].
  split; intros Hf; rewrite Hf in X; exact X.
Qed.

Lemma generate_success_replaces_result_witness :
  exists w2 : World,
    step (after (download_during_generation ++ [Settle 1 unreachable_server]))
      (Settle 0 generated) = Some w2 /\
    generatedImage (ui w2) =
      Some {| Image.url := Data.imageUrl cat_data; Image.prompt := Data.prompt cat_data |} /\
    (never fails_download (generateImage (after first_image))
       [ClickDownload; Settle 1 unreachable_server] = true ->
     error (ui w2) = []) /\
    (never fails_download (generateImage (after first_image))
       [ClickDownload; Settle 1 unreachable_server] = false ->
     error (ui w2) = lit "Failed to download image").
Proof.
  apply (generate_success_replaces_result
           (after first_image)
           (after (download_during_generation ++ [Settle 1 unreachable_server]))
           [ClickDownload; Settle 1 unreachable_server] 0 (lit "a cat")
           generated cat_data);
    vm_compute; reflexivity.
Defined.

(** C3, as stated, fails: a failed run leaves the earlier image in
    place, and it is still rendered next to the error. *)
Lemma generate_failure_keeps_result :
  exists w1 w2 : World,
    exec init (first_image ++ [ClickGenerate]) = Some w1 /\
    generatedImage (ui w1) = Some cat_image /\
    generation_succeeds refused = None /\
    step w1 (Settle 0 refused) = Some w2 /\
    generatedImage (ui w2) = Some cat_image /\
    result_panel (render (ui w2)) = Some cat_image /\
    error (ui w2) = lit "Failed to generate image".
Proof.
  do 2 eexists.
  split; [vm_compute; reflexivity|].
  split; [reflexivity|].
  split; [reflexivity|].
  split; [vm_compute; reflexivity|].
  split; [reflexivity|].
  split; reflexivity.
Qed.

(** C3, amended. A run of [generateImage] that fails (the fetch or the
    JSON reader rejects, or the JSON has [success] false) leaves the
    generated image as it was when the run started, so an earlier result
    stays rendered; when the run completes the error is the failure text:
    the backend's non-empty [error], else the fallback, or the
    network-error message.  Here [es] are the events between the start of
    the run and the settlement of its request. *)
Theorem generate_failure_shows_error
  (w w1 : World) (es : list event) (i : nat) (p : jsstring) (s : settlement) :
  truthy (trim (prompt (ui w))) = true ->
  exec (generateImage w) es = Some w1 ->
  never settles_generation (generateImage w) es = true ->
  pending w1 !! i = Some (GenerateRequest p) ->
  generation_succeeds s = None ->
  exists w2 : World,
    step w1 (Settle i s) = Some w2 /\
    generatedImage (ui w2) = generatedImage (ui w) /\
    result_panel (render (ui w2)) = generatedImage (ui w) /\
    error (ui w2) = generation_failure_text s.
Proof.
  intros Hp He Hn Hi Hs.
  rewrite (generateImage_go w Hp) in He, Hn.
  pose proof (fun H => exec_in_flight es _ w1 H Hn He) as X.
  destruct (X eq_refl) as (_ & _ & G & _ & _).
  simpl in G.
  eexists. split; [simpl; rewrite Hi; reflexivity|].
  rewrite (generateImage_resume_ko _ s Hs). simpl. auto.
Qed.

Lemma generate_failure_shows_error_witness :
  exists w2 : World,
    step (after download_during_generation) (Settle 0 unreachable_server) = Some w2 /\
    generatedImage (ui w2) = generatedImage (ui (after first_image)) /\
    result_panel (render (ui w2)) = generatedImage (ui (after first_image)) /\
    error (ui w2) = generation_failure_text unreachable_server.
Proof.
  apply (generate_failure_shows_error
           (after first_image) (after download_during_generation)
           [ClickDownload] 0 (lit "a cat") unreachable_server);
    vm_compute; reflexivity.
Defined.

(** C4, as stated, fails: after a failed download the error box is
    rendered together with the result panel. *)
Lemma error_box_with_result_panel :
  exists w : World,
    exec init (first_image ++ [ClickDownload; Settle 0 unreachable_server]) = Some w /\
    result_panel (render (ui w)) = Some cat_image /\
    error_box (render (ui w)) = Some (lit "Failed to download image").
Proof.
  eexists. split; [vm_compute; reflexivity|].
  split; reflexivity.
Qed.

(** C4, amended. In every reachable state exactly one of the three
    rendering states (idle, loading, result) is shown; the loading panel
    is never rendered with the result panel, and the error box is never
    rendered with the loading panel.  The error box can be rendered with
    the result panel. *)
Theorem rendering_states_exclusive (w : World) :
  reachable w ->
  let v := render (ui w) in
  count (shows_idle v) + count (shows_loading v) + count (shows_result v) = 1 /\
  shows_loading v && shows_result v = false /\
  shows_loading v && shows_error v = false.
Proof.
  intros Hr v. apply reachable_invariant in Hr as (_ & _ & I3 & _).
  subst v. unfold shows_idle, shows_loading, shows_result, shows_error, render; simpl.
  destruct (isGenerating (ui w)), (generatedImage (ui w)) as [g|]; simpl;
    repeat split; auto.
  rewrite (I3 eq_refl eq_refl). reflexivity.
Qed.

Lemma rendering_states_exclusive_witness :
  count (shows_idle (render (ui (after download_during_generation))))
  + count (shows_loading (render (ui (after download_during_generation))))
  + count (shows_result (render (ui (after download_during_generation)))) = 1 /\
  shows_loading (render (ui (after download_during_generation)))
  && shows_result (render (ui (after download_during_generation))) = false /\
  shows_loading (render (ui (after download_during_generation)))
  && shows_error (render (ui (after download_during_generation))) = false.
Proof.
  apply (rendering_states_exclusive (after download_during_generation)).
  exists download_during_generation. vm_compute. reflexivity.
Defined.

(** C5, as stated, fails on the failure path: the error text changes and
    no file is saved. *)
Lemma download_failure_changes_error :
  exists w1 w2 : World,
    exec init (first_image ++ [ClickDownload]) = Some w1 /\
    generatedImage (ui w1) = Some cat_image /\
    error (ui w1) = [] /\
    step w1 (Settle 0 unreachable_server) = Some w2 /\
    error (ui w2) = lit "Failed to download image" /\
    error (ui w2) <> error (ui w1) /\
    saved_files w2 = [].
Proof.
  do 2 eexists.
  split; [vm_compute; reflexivity|].
  split; [reflexivity|].
  split; [reflexivity|].
  split; [vm_compute; reflexivity|].
  split; [reflexivity|].
  split; [discriminate|reflexivity].
Qed.

(** C5, amended. With a generated image displayed, [downloadImage]
    fetches the image's URL without touching the displayed state.  When
    the download succeeds, the bytes are saved to a local file and the
    prompt, the generated image and the error are left as they are.  When
    it fails, no file is saved, the prompt and the generated image are
    left as they are, and the error becomes 'Failed to download image'. *)
Theorem downloadImage_frame (w : World) (g : GeneratedImage) :
  generatedImage (ui w) = Some g ->
  (ui (downloadImage w) = ui w /\
   saved_files (downloadImage w) = saved_files w /\
   pending (downloadImage w) = pending w ++ [ImageRequest (Image.url g)]) /\
  (forall (w1 : World) (s : settlement) (b : Blob),
     download_succeeds s = Some b ->
     ui (downloadImage_resume s w1) = ui w1 /\
     saved_files (downloadImage_resume s w1) =
       saved_files w1 ++ [{| file_name := lit "generated-image.png"; file_bytes := b |}]) /\
  (forall (w1 : World) (s : settlement),
     download_succeeds s = None ->
     prompt (ui (downloadImage_resume s w1)) = prompt (ui w1) /\
     generatedImage (ui (downloadImage_resume s w1)) = generatedImage (ui w1) /\
     isGenerating (ui (downloadImage_resume s w1)) = isGenerating (ui w1) /\
     error (ui (downloadImage_resume s w1)) = lit "Failed to download image" /\
     saved_files (downloadImage_resume s w1) = saved_files w1).
Proof.
  intros Hg. split; [|split].
  - unfold downloadImage. rewrite Hg. simpl. auto.
  - intros w1 s b Hs. exact (downloadImage_resume_ok w1 s b Hs).
  - intros w1 s Hs.
    destruct (downloadImage_resume_ko w1 s Hs) as [-> ->]. simpl. auto.
Qed.

Lemma downloadImage_frame_witness :
  ui (downloadImage_resume image_bytes (settled 0 (downloadImage (after first_image))))
    = ui (after first_image) /\
  saved_files (downloadImage_resume image_bytes (settled 0 (downloadImage (after first_image))))
    = [{| file_name := lit "generated-image.png"; file_bytes := png |}].
Proof.
  assert (Hg : generatedImage (ui (after first_image)) = Some cat_image) by reflexivity.
  destruct (downloadImage_frame (after first_image) cat_image Hg) as (_ & Hok & _).
  exact (Hok (settled 0 (downloadImage (after first_image))) image_bytes png eq_refl).
Defined.

(** Both kinds of error text do come up. *)
Lemma both_error_kinds_occur :
  (exists w' : World,
     step init (KeyPress (lit "Enter")) = Some w' /\
     surfaced init (KeyPress (lit "Enter"))
       = Some (EmptyPromptValidation, error (ui w'))) /\
  (exists w' : World,
     step (after download_during_generation) (Settle 0 unreachable_server) = Some w' /\
     surfaced (after download_during_generation) (Settle 0 unreachable_server)
       = Some (RequestFailure, error (ui w'))).
Proof.
  split; eexists; (split; [vm_compute; reflexivity | reflexivity]).
Qed.

(** C6. Two kinds of error text are surfaced and no others.  An event
    changes the error only to clear it at the start of a generation, to
    show the empty-prompt validation message, or to show the failure
    message of a request that settled without success (a thrown fetch
    or body reader, or a non-success JSON response; the thrown fetch of
    [downloadImage] included).  Whenever an event brings up a text of one
    of the two kinds, that text is the error shown. *)
Theorem error_texts_of_two_kinds (w w' : World) (e : event) :
  step w e = Some w' ->
  (forall (k : error_kind) (t : jsstring),
     surfaced w e = Some (k, t) -> error (ui w') = t) /\
  (surfaced w e = None ->
     error (ui w') = error (ui w) \/ error (ui w') = []) /\
  (exists w1 w2 e1 e2 t1 t2,
     surfaced w1 e1 = Some (EmptyPromptValidation, t1) /\
     surfaced w2 e2 = Some (RequestFailure, t2)).
Proof.
  intros Hstep. split; [|split].
  - intros k t. revert Hstep.
    destruct e as [v|key| | |i s]; simpl; try discriminate.
    + destruct (isGenerating (ui w)) eqn:Hg; [discriminate|].
      intros [= <-]. unfold handleKeyPress. rewrite Hg.
      destruct (bool_decide (key = lit "Enter")); simpl; [|discriminate].
      unfold generateImage.
      destruct (truthy (trim (prompt (ui w)))); simpl; [discriminate|].
      now intros [= _ <-].
    + destruct (isGenerating (ui w)); [discriminate|]; simpl.
      destruct (truthy (trim (prompt (ui w)))); discriminate.
    + destruct (pending w !! i) as [[p|u]|]; try discriminate; intros [= <-].
      * destruct (generation_succeeds s) eqn:Hs; [discriminate|].
        intros [= _ <-]. rewrite (generateImage_resume_ko _ s Hs). reflexivity.
      * destruct (download_succeeds s) eqn:Hs; [discriminate|].
        intros [= _ <-].
        destruct (downloadImage_resume_ko (settled i w) s Hs) as [-> _]. reflexivity.
  - revert Hstep.
    destruct e as [v|key| | |i s]; simpl.
    + destruct (isGenerating (ui w)); [discriminate|]. intros [= <-]. now left.
    + destruct (isGenerating (ui w)) eqn:Hg; [discriminate|].
      intros [= <-]. unfold handleKeyPress. rewrite Hg.
      destruct (bool_decide (key = lit "Enter")); simpl; [|now left].
      unfold generateImage.
      destruct (truthy (trim (prompt (ui w)))); simpl; [now right|discriminate].
    + destruct (isGenerating (ui w)); [discriminate|]; simpl.
      unfold generateImage.
      destruct (truthy (trim (prompt (ui w)))); simpl; [|discriminate].
      intros [= <-]. now right.
    + unfold downloadImage.
      destruct (generatedImage (ui w)); [|discriminate]. intros [= <-]. now left.
    + destruct (pending w !! i) as [[p|u]|]; try discriminate; intros [= <-].
      * destruct (generation_succeeds s) as [d|] eqn:Hs; [|discriminate].
        intros _. rewrite (generateImage_resume_ok _ s d Hs). now left.
      * destruct (download_succeeds s) as [b|] eqn:Hs; [|discriminate].
        intros _. destruct (downloadImage_resume_ok (settled i w) s b Hs) as [-> _].
        now left.
  - destruct both_error_kinds_occur as [[wa [_ Ha]] [wb [_ Hb]]].
    do 6 eexists. split; [exact Ha | exact Hb].
Qed.

Lemma error_texts_of_two_kinds_witness :
  step (after (first_image ++ [ClickDownload])) (Settle 0 unreachable_server)
    = Some (after (first_image ++ [ClickDownload; Settle 0 unreachable_server])) /\
  forall (k : error_kind) (t : jsstring),
    surfaced (after (first_image ++ [ClickDownload])) (Settle 0 unreachable_server)
      = Some (k, t) ->
    error (ui (after (first_image ++ [ClickDownload; Settle 0 unreachable_server]))) = t.
Proof.
  split; [vm_compute; reflexivity|].
  apply (error_texts_of_two_kinds
           (after (first_image ++ [ClickDownload]))
           (after (first_image ++ [ClickDownload; Settle 0 unreachable_server]))
           (Settle 0 unreachable_server)).
  vm_compute. reflexivity.
Defined.




(** Every file saved so far carries that name. *)
Lemma saved_files_named (w : World) :
  reachable w ->
  Forall (fun f => file_name f = lit "generated-image.png") (saved_files w).
Proof. intros Hr. now apply reachable_invariant in Hr as (_ & _ & _ & I4). Qed.

(** C8. Every download that succeeds saves one file, and its name is
    exactly 'generated-image.png'. *)
Theorem download_file_name
  (w : World) (i : nat) (u : jsstring) (s : settlement) (b : Blob) :
  pending w !! i = Some (ImageRequest u) ->
  download_succeeds s = Some b ->
  exists (w' : World) (f : file),
    step w (Settle i s) = Some w' /\
    saved_files w' = saved_files w ++ [f] /\
    file_name f = lit "generated-image.png" /\
    file_bytes f = b.
Proof.
  intros Hp Hs. do 2 eexists.
  split; [simpl; rewrite Hp; reflexivity|].
  destruct (downloadImage_resume_ok (settled i w) s b Hs) as [_ ->].
  simpl. split; [reflexivity|]. split; reflexivity.
Qed.

Lemma download_file_name_witness :
  exists (w' : World) (f : file),
    step (after download_during_generation) (Settle 1 image_bytes) = Some w' /\
    saved_files w' = saved_files (after download_during_generation) ++ [f] /\
    file_name f = lit "generated-image.png" /\
    file_bytes f = png.
Proof.
  apply (download_file_name (after download_during_generation) 1
           (lit "http://localhost:5000/images/1.png") image_bytes png);
    reflexivity.
Defined.

(** C9. A run of [generateImage] that passes the validation sets
    [isGenerating] and sends its request; the flag stays set while the
    request is in flight, and the settlement resets it whatever the
    outcome: success, backend failure or a thrown fetch. *)
Theorem generateImage_resets_isGenerating
  (w w1 : World) (es : list event) (i : nat) (p : jsstring) (s : settlement) :
  truthy (trim (prompt (ui w))) = true ->
  exec (generateImage w) es = Some w1 ->
  never settles_generation (generateImage w) es = true ->
  pending w1 !! i = Some (GenerateRequest p) ->
  isGenerating (ui (generateImage w)) = true /\
  issued (generateImage w) = issued w ++ [GenerateRequest (trim (prompt (ui w)))] /\
  isGenerating (ui w1) = true /\
  exists w2 : World,
    step w1 (Settle i s) = Some w2 /\ isGenerating (ui w2) = false.
Proof.
  intros Hp He Hn Hi.
  rewrite (generateImage_go w Hp) in He, Hn |- *.
  pose proof (fun H => exec_in_flight es _ w1 H Hn He) as X.
  destruct (X eq_refl) as (G & _).
  repeat split; auto.
  eexists. split; [simpl; rewrite Hi; reflexivity|].
  destruct (generation_succeeds s) as [d|] eqn:Hs.
  - now rewrite (generateImage_resume_ok _ s d Hs).
  - now rewrite (generateImage_resume_ko _ s Hs).
Qed.

Lemma generateImage_resets_isGenerating_witness :
  isGenerating (ui (generateImage dog_world)) = true /\
  issued (generateImage dog_world)
    = issued dog_world ++ [GenerateRequest (trim (prompt (ui dog_world)))] /\
  isGenerating (ui (generateImage dog_world)) = true /\
  exists w2 : World,
    step (generateImage dog_world) (Settle 0 unreachable_server) = Some w2 /\
    isGenerating (ui w2) = false.
Proof.
  apply (generateImage_resets_isGenerating dog_world (generateImage dog_world)
           [] 0 (lit "a dog") unreachable_server); reflexivity.
Defined.

(** C10. When the JSON has [success] false and its [error] is absent or
    the empty string, the error shown is the fallback text
    'Failed to generate image'. *)
Theorem generate_failure_fallback_text (w : World) (r : Response) (d : Data.t) :
  json r = inr d ->
  Data.success d = false ->
  Data.error d = None \/ Data.error d = Some [] ->
  error (ui (generateImage_resume (Resolved r) w)) = lit "Failed to generate image".
Proof.
  intros Hj Hs He.
  assert (Hf : generation_succeeds (Resolved r) = None).
  { destruct r as [j b]; simpl in *. subst j. now rewrite Hs. }
  rewrite (generateImage_resume_ko w _ Hf). simpl.
  destruct r as [j b]; simpl in *. subst j.
  destruct He as [-> | ->]; reflexivity.
Qed.

Lemma generate_failure_fallback_text_witness :
  error (ui (generateImage_resume refused (generateImage dog_world)))
    = lit "Failed to generate image".
Proof.
  apply (generate_failure_fallback_text (generateImage dog_world)
           {| json := inr (Data.mk false [] [] None); blob := inr [] |}
           (Data.mk false [] [] None));
    [reflexivity | reflexivity | left; reflexivity].
Defined.

(** ** Further properties of the component *)

Section TrimShape.

Lemma trimStart_split (s : jsstring) :
  exists pre : jsstring, s = pre ++ trimStart s /\ whitespace_only pre.
Proof.
  induction s as [|c s [pre [E H]]]; simpl.
  - exists []. split; [reflexivity|constructor].
  - destruct (is_white_space c) eqn:Hc.
    + exists (c :: pre). split; [simpl; congruence|now constructor].
    + exists []. split; [reflexivity|constructor].
Qed.

Lemma trimEnd_split (s : jsstring) :
  exists post : jsstring, s = trimEnd s ++ post /\ whitespace_only post.
Proof.
  destruct (trimStart_split (rev s)) as [pre [E H]].
  exists (rev pre). split.
  - unfold trimEnd. rewrite <- rev_app_distr, <- E. now rewrite rev_involutive.
  - now apply List.Forall_rev.
Qed.

Lemma trim_split (s : jsstring) :
  exists pre post : jsstring,
    s = pre ++ trim s ++ post /\ whitespace_only pre /\ whitespace_only post.
Proof.
  destruct (trimStart_split s) as [pre [E1 H1]].
  destruct (trimEnd_split (trimStart s)) as [post [E2 H2]].
  exists pre, post. unfold trim. rewrite <- E2. auto.
Qed.

Lemma trim_first (s t : jsstring) (c : code_unit) :
  trim s = c :: t -> is_white_space c = false.
Proof.
  intros E. destruct (trimEnd_split (trimStart s)) as [post [E2 _]].
  fold (trim s) in E2. rewrite E in E2. simpl in E2.
  exact (trimStart_head s _ c E2).
Qed.

Lemma trim_last (s t : jsstring) (c : code_unit) :
  trim s = t ++ [c] -> is_white_space c = false.
Proof.
  unfold trim, trimEnd. intros E.
  apply (f_equal (@rev code_unit)) in E.
  rewrite rev_involutive, rev_app_distr in E. simpl in E.
  exact (trimStart_head _ _ c E).
Qed.

Lemma trimStart_id (s : jsstring) :
  (forall c t, s = c :: t -> is_white_space c = false) -> trimStart s = s.
Proof.
  destruct s as [|c t]; simpl; [reflexivity|].
  intros H. now rewrite (H c t eq_refl).
Qed.

Lemma trim_idempotent (s : jsstring) : trim (trim s) = trim s.
Proof.
  unfold trim at 1.
  rewrite (trimStart_id (trim s)) by (intros c t; apply trim_first).
  unfold trimEnd. rewrite trimStart_id; [apply rev_involutive|].
  intros c t E. apply (trim_last s (rev t) c).
  rewrite <- (rev_involutive (trim s)), E. reflexivity.
Qed.

End TrimShape.

(** X1. The prompt posted to the backend is the typed prompt without
    its leading and trailing whitespace: it is not empty, it does not
    start or end with whitespace, trimming it again changes nothing, and
    the typed prompt is that text with only whitespace around it. *)
Theorem posted_prompt_is_trimmed (w : World) :
  truthy (trim (prompt (ui w))) = true ->
  exists p pre post : jsstring,
    issued (generateImage w) = issued w ++ [GenerateRequest p] /\
    prompt (ui w) = pre ++ p ++ post /\
    whitespace_only pre /\ whitespace_only post /\
    p <> [] /\ trim p = p /\
    (forall c t, p = c :: t -> is_white_space c = false) /\
    (forall c t, p = t ++ [c] -> is_white_space c = false).
Proof.
  intros Hp. destruct (trim_split (prompt (ui w))) as (pre & post & E & H1 & H2).
  exists (trim (prompt (ui w))), pre, post.
  rewrite (generateImage_go w Hp). simpl.
  repeat split; auto.
  - intros Hn. rewrite Hn in Hp. discriminate.
  - apply trim_idempotent.
  - intros c t. apply trim_first.
  - intros c t. apply trim_last.
Qed.

Lemma posted_prompt_is_trimmed_witness :
  exists p pre post : jsstring,
    issued (generateImage padded_world) = issued padded_world ++ [GenerateRequest p] /\
    prompt (ui padded_world) = pre ++ p ++ post /\
    whitespace_only pre /\ whitespace_only post /\
    p <> [] /\ trim p = p /\
    (forall c t, p = c :: t -> is_white_space c = false) /\
    (forall c t, p = t ++ [c] -> is_white_space c = false).
Proof.
  apply (posted_prompt_is_trimmed padded_world). reflexivity.
Defined.

(** X2. The Generate button can be clicked exactly when no generation is
    running and the prompt is not blank; a click then always sends the
    trimmed prompt, raises [isGenerating] and removes the error box: the
    validation message never comes from the button. *)
Theorem generate_button_sends (w : World) :
  ((exists w' : World, step w ClickGenerate = Some w') <->
   isGenerating (ui w) = false /\ ~ whitespace_only (prompt (ui w))) /\
  (forall w' : World,
     step w ClickGenerate = Some w' ->
     pending w' = pending w ++ [GenerateRequest (trim (prompt (ui w)))] /\
     isGenerating (ui w') = true /\
     error_box (render (ui w')) = None /\
     generatedImage (ui w') = generatedImage (ui w)).
Proof.
  split; [split|].
  - intros [w' H]. simpl in H.
    destruct (isGenerating (ui w)); [discriminate|]. simpl in H.
    destruct (truthy (trim (prompt (ui w)))) eqn:Ht; [|discriminate].
    split; [reflexivity|]. intros Hb. apply truthy_trim_false in Hb. congruence.
  - intros [Hg Hb]. simpl. rewrite Hg. simpl.
    destruct (truthy (trim (prompt (ui w)))) eqn:Ht; simpl; [eauto|].
    apply truthy_trim_false in Ht. contradiction.
  - intros w'. simpl.
    destruct (isGenerating (ui w)); [discriminate|]. simpl.
    destruct (truthy (trim (prompt (ui w)))) eqn:Ht; [|discriminate]. simpl.
    intros [= <-]. rewrite (generateImage_go w Ht). simpl. auto.
Qed.

Lemma generate_button_sends_witness :
  exists w' : World, step dog_world ClickGenerate = Some w'.
Proof.
  apply (proj1 (generate_button_sends dog_world)).
  split; [reflexivity|].
  intros H. apply truthy_trim_false in H. discriminate.
Defined.

(** X3. A key press other than Enter does nothing.  Enter does what a
    click on Generate does whenever the button is enabled; on a blank
    prompt, where the button is disabled, Enter sends nothing and shows
    the validation message. *)
Theorem key_press_effect (w w' : World) (key : jsstring) :
  step w (KeyPress key) = Some w' ->
  (key <> lit "Enter" -> w' = w) /\
  (key = lit "Enter" ->
   (~ whitespace_only (prompt (ui w)) -> step w ClickGenerate = Some w') /\
   (whitespace_only (prompt (ui w)) ->
    step w ClickGenerate = None /\
    w' = setError (lit "Please enter a prompt") w)).
Proof.
  simpl. destruct (isGenerating (ui w)) eqn:Hg; [discriminate|].
  intros [= <-]. unfold handleKeyPress. rewrite Hg. simpl.
  split.
  - intros Hk. now rewrite bool_decide_eq_false_2.
  - intros Hk. rewrite bool_decide_eq_true_2 by exact Hk. simpl.
    split; intros Hb.
    + destruct (truthy (trim (prompt (ui w)))) eqn:Ht; [reflexivity|].
      apply truthy_trim_false in Ht. contradiction.
    + apply truthy_trim_false in Hb. rewrite Hb. simpl.
      split; [reflexivity|]. now apply generateImage_blank.
Qed.

Lemma key_press_effect_witness :
  step blank_world ClickGenerate = None /\
  generateImage blank_world = setError (lit "Please enter a prompt") blank_world.
Proof.
  refine (proj2 (proj2 (key_press_effect blank_world (generateImage blank_world)
                          (lit "Enter") eq_refl) eq_refl) _).
  repeat constructor.
Defined.

(** X5. A generated image is never taken off the screen: once one is
    stored, every later state has one, and the loading panel is never
    rendered again. *)
Theorem image_never_cleared (es : list event) : forall w w' : World,
  exec w es = Some w' ->
  is_Some (generatedImage (ui w)) ->
  is_Some (generatedImage (ui w')) /\
  loading_panel (render (ui w')) = false.
Proof.
  assert (Hl : forall w, is_Some (generatedImage (ui w)) ->
                         loading_panel (render (ui w)) = false).
  { intros w [g Hg]. simpl. rewrite Hg.
    rewrite bool_decide_eq_true_2 by eauto. apply andb_false_r. }
  induction es as [|e es IH]; intros w w'; simpl.
  - intros [= <-] H. split; [exact H | exact (Hl w H)].
  - destruct (step w e) as [w1|] eqn:Hs; [|discriminate].
    intros He Hi. apply (IH w1 w' He).
    destruct Hi as [g Hg]. revert Hs. clear -Hg.
    destruct e as [v|k| | |i s]; simpl.
    + destruct (isGenerating (ui w)); [discriminate|]. intros [= <-]. simpl. eauto.
    + destruct (isGenerating (ui w)) eqn:E; [discriminate|].
      intros [= <-]. unfold handleKeyPress, generateImage. rewrite E.
      destruct (bool_decide (k = lit "Enter")); simpl; eauto.
      destruct (truthy (trim (prompt (ui w)))); simpl; eauto.
    + destruct (isGenerating (ui w) || _); [discriminate|].
      intros [= <-]. unfold generateImage.
      destruct (truthy (trim (prompt (ui w)))); simpl; eauto.
    + unfold downloadImage. rewrite Hg. intros [= <-]. simpl. eauto.
    + destruct (pending w !! i) as [[p|u]|]; try discriminate; intros [= <-].
      * destruct (generation_succeeds s) as [d|] eqn:Hs.
        -- rewrite (generateImage_resume_ok _ s d Hs). simpl. eauto.
        -- rewrite (generateImage_resume_ko _ s Hs). simpl. eauto.
      * destruct (download_succeeds s) as [b|] eqn:Hs.
        -- destruct (downloadImage_resume_ok (settled i w) s b Hs) as [-> _].
           simpl. eauto.
        -- destruct (downloadImage_resume_ko (settled i w) s Hs) as [-> _].
           simpl. eauto.
Qed.

Lemma image_never_cleared_witness :
  is_Some (generatedImage (ui (after (first_image ++ [ClickGenerate; Settle 0 refused])))) /\
  loading_panel (render (ui (after (first_image ++ [ClickGenerate; Settle 0 refused]))))
    = false.
Proof.
  apply (image_never_cleared [ClickGenerate; Settle 0 refused] (after first_image)).
  - vm_compute. reflexivity.
  - exists cat_image. reflexivity.
Defined.

Section Console.

Variable w : World.

Lemma generateImage_resume_console (s : settlement) :
  console (generateImage_resume s w) =
    console w ++ match generation_throws s with
                 | Some x => [(lit "Error:", x)]
                 | None => []
                 end.
Proof.
  destruct s as [e|[[e|d] b]]; simpl; try reflexivity.
  unfold generateImage_resume, try_catch_finally, try_catch; simpl.
  destruct (Data.success d); simpl; now rewrite app_nil_r.
Qed.

Lemma downloadImage_resume_console (s : settlement) :
  console (downloadImage_resume s w) =
    console w ++ match download_throws s with
                 | Some x => [(lit "Error downloading image:", x)]
                 | None => []
                 end.
Proof.
  destruct s as [e|[j [e|b]]]; simpl; try reflexivity.
  unfold downloadImage_resume, try_catch, click; simpl.
  rewrite lookup_insert_eq. simpl. now rewrite app_nil_r.
Qed.

End Console.

(** X8. [console.error] is written exactly when something was thrown
    at an [await]: one line labelled 'Error:' for a generation, one
    labelled 'Error downloading image:' for a download.  A response with
    [success] false is shown to the user but not logged, and no user
    event logs anything. *)
Theorem console_lines (w w' : World) (e : event) :
  step w e = Some w' ->
  console w' = console w ++ logged w e /\
  (forall i s, e = Settle i s -> generation_throws s = None ->
               download_throws s = None -> console w' = console w).
Proof.
  intros Hstep.
  assert (H : console w' = console w ++ logged w e).
  { revert Hstep. destruct e as [v|k| | |i s]; simpl.
    - destruct (isGenerating (ui w)); [discriminate|].
      intros [= <-]. simpl. now rewrite app_nil_r.
    - destruct (isGenerating (ui w)) eqn:E; [discriminate|].
      intros [= <-]. unfold handleKeyPress, generateImage. rewrite E.
      destruct (bool_decide (k = lit "Enter")); simpl; [|now rewrite app_nil_r].
      destruct (truthy (trim (prompt (ui w)))); simpl; now rewrite app_nil_r.
    - destruct (isGenerating (ui w) || _); [discriminate|].
      intros [= <-]. unfold generateImage.
      destruct (truthy (trim (prompt (ui w)))); simpl; now rewrite app_nil_r.
    - unfold downloadImage.
      destruct (generatedImage (ui w)); [|discriminate].
      intros [= <-]. simpl. now rewrite app_nil_r.
    - destruct (pending w !! i) as [[p|u]|]; try discriminate; intros [= <-].
      + exact (generateImage_resume_console (settled i w) s).
      + exact (downloadImage_resume_console (settled i w) s). }
  split; [exact H|].
  intros i s -> Hg Hd. rewrite H. simpl.
  destruct (pending w !! i) as [[p|u]|]; rewrite ?Hg, ?Hd; apply app_nil_r.
Qed.

Lemma console_lines_witness :
  console (after (first_image ++ [ClickGenerate; Settle 0 refused]))
    = console (after (first_image ++ [ClickGenerate]))
      ++ logged (after (first_image ++ [ClickGenerate])) (Settle 0 refused).
Proof.
  apply (console_lines (after (first_image ++ [ClickGenerate]))
           (after (first_image ++ [ClickGenerate; Settle 0 refused]))
           (Settle 0 refused)).
  vm_compute. reflexivity.
Defined.

(** X9. Only typing changes the prompt: no click, key press or
    settlement rewrites or clears the text, and typing is possible only
    while no generation is running.  Typing changes nothing else; in
    particular it does not dismiss the error box. *)
Theorem prompt_changes_only_by_typing (w w' : World) (e : event) :
  step w e = Some w' ->
  (prompt (ui w') <> prompt (ui w) ->
   e = Change (prompt (ui w')) /\ isGenerating (ui w) = false) /\
  (forall v, e = Change v ->
     prompt (ui w') = v /\
     error_box (render (ui w')) = error_box (render (ui w)) /\
     result_panel (render (ui w')) = result_panel (render (ui w)) /\
     isGenerating (ui w') = isGenerating (ui w) /\
     issued w' = issued w).
Proof.
  intros Hstep. split.
  - revert Hstep. destruct e as [v|k| | |i s]; simpl.
    + destruct (isGenerating (ui w)); [discriminate|].
      intros [= <-]. simpl. auto.
    + destruct (isGenerating (ui w)) eqn:E; [discriminate|].
      intros [= <-]. unfold handleKeyPress, generateImage. rewrite E.
      destruct (bool_decide (k = lit "Enter")); simpl; [|congruence].
      destruct (truthy (trim (prompt (ui w)))); simpl; congruence.
    + destruct (isGenerating (ui w) || _); [discriminate|].
      intros [= <-]. unfold generateImage.
      destruct (truthy (trim (prompt (ui w)))); simpl; congruence.
    + unfold downloadImage.
      destruct (generatedImage (ui w)); [|discriminate].
      intros [= <-]. simpl. congruence.
    + destruct (pending w !! i) as [[p|u]|]; try discriminate; intros [= <-].
      * destruct (generation_succeeds s) as [d|] eqn:Hs.
        -- rewrite (generateImage_resume_ok _ s d Hs). simpl. congruence.
        -- rewrite (generateImage_resume_ko _ s Hs). simpl. congruence.
      * destruct (download_succeeds s) as [b|] eqn:Hs.
        -- destruct (downloadImage_resume_ok (settled i w) s b Hs) as [-> _].
           simpl. congruence.
        -- destruct (downloadImage_resume_ko (settled i w) s Hs) as [-> _].
           simpl. congruence.
  - intros v ->. revert Hstep. simpl.
    destruct (isGenerating (ui w)) eqn:E; [discriminate|].
    intros [= <-]. simpl. repeat split; try reflexivity. exact E.
Qed.

Lemma prompt_changes_only_by_typing_witness :
  prompt (ui (after (first_image ++ [ClickDownload; Settle 0 unreachable_server;
                                     Change (lit "a dog")]))) = lit "a dog" /\
  error_box (render (ui (after (first_image ++ [ClickDownload; Settle 0 unreachable_server;
                                                Change (lit "a dog")]))))
    = error_box (render (ui (after (first_image ++ [ClickDownload;
                                                    Settle 0 unreachable_server])))).
Proof.
  assert (Hs : step (after (first_image ++ [ClickDownload; Settle 0 unreachable_server]))
                 (Change (lit "a dog"))
               = Some (after (first_image ++ [ClickDownload; Settle 0 unreachable_server;
                                              Change (lit "a dog")])))
    by (vm_compute; reflexivity).
  destruct (prompt_changes_only_by_typing _ _ _ Hs) as [_ H].
  destruct (H (lit "a dog") eq_refl) as (H1 & H2 & _).
  split; [exact H1 | exact H2].
Defined.

Section Surfaced.

Lemma or_else_truthy (a : option jsstring) (b : jsstring) :
  truthy b = true -> truthy (or_else a b) = true.
Proof.
  intros Hb. destruct a as [s|]; simpl; [|exact Hb].
  destruct (truthy s) eqn:E; [exact E | exact Hb].
Qed.

Lemma generation_failure_text_truthy (s : settlement) :
  truthy (generation_failure_text s) = true.
Proof.
  destruct s as [e|[[e|d] b]]; simpl; try reflexivity.
  now apply or_else_truthy.
Qed.

End Surfaced.

(** X10. Every error text the program brings up is non-empty, so the
    error box is rendered with it: the validation message, the failure
    text of a generation (the fallback stands in for an empty backend
    message) and the download failure message. *)
Theorem surfaced_error_is_rendered
  (w w' : World) (e : event) (k : error_kind) (t : jsstring) :
  step w e = Some w' ->
  surfaced w e = Some (k, t) ->
  t <> [] /\ error_box (render (ui w')) = Some t.
Proof.
  intros Hstep Hsurf.
  assert (H : truthy t = true /\ error (ui w') = t).
  { revert Hstep Hsurf.
    destruct e as [v|key| | |i s]; simpl; try discriminate.
    - destruct (isGenerating (ui w)) eqn:Hg; [discriminate|].
      intros [= <-]. unfold handleKeyPress. rewrite Hg.
      destruct (bool_decide (key = lit "Enter")); simpl; [|discriminate].
      unfold generateImage.
      destruct (truthy (trim (prompt (ui w)))); simpl; [discriminate|].
      intros [= _ <-]. split; reflexivity.
    - destruct (isGenerating (ui w)); [discriminate|]; simpl.
      destruct (truthy (trim (prompt (ui w)))); discriminate.
    - destruct (pending w !! i) as [[p|u]|]; try discriminate; intros [= <-].
      + destruct (generation_succeeds s) eqn:Hs; [discriminate|].
        intros [= _ <-]. rewrite (generateImage_resume_ko _ s Hs).
        split; [apply generation_failure_text_truthy | reflexivity].
      + destruct (download_succeeds s) eqn:Hs; [discriminate|].
        intros [= _ <-].
        destruct (downloadImage_resume_ko (settled i w) s Hs) as [-> _].
        split; reflexivity. }
  destruct H as [Ht He]. split.
  - intros ->. discriminate.
  - simpl. now rewrite He, Ht.
Qed.

Lemma surfaced_error_is_rendered_witness :
  lit "Failed to generate image" <> [] /\
  error_box (render (ui (after (first_image ++ [ClickGenerate; Settle 0 refused]))))
    = Some (lit "Failed to generate image").
Proof.
  apply (surfaced_error_is_rendered
           (after (first_image ++ [ClickGenerate]))
           (after (first_image ++ [ClickGenerate; Settle 0 refused]))
           (Settle 0 refused) RequestFailure (lit "Failed to generate image"));
    vm_compute; reflexivity.
Defined.

(** ** Housekeeping in the reachable worlds *)

Section Housekeeping.

Lemma generateImage_resume_env (w : World) (s : settlement) :
  object_urls (generateImage_resume s w) = object_urls w /\
  document_body (generateImage_resume s w) = document_body w.
Proof.
  destruct s as [e|[[e|d] b]]; simpl; auto.
  unfold generateImage_resume, try_catch_finally, try_catch; simpl.
  destruct (Data.success d); auto.
Qed.

(** The object URL is revoked and the link removed before
    [downloadImage] returns. *)
Lemma downloadImage_resume_env (w : World) (s : settlement) :
  object_urls w = ∅ -> document_body w = [] ->
  object_urls (downloadImage_resume s w) = ∅ /\
  document_body (downloadImage_resume s w) = [].
Proof.
  intros H1 H2. destruct s as [e|[j [e|b]]]; simpl; auto.
  unfold downloadImage_resume, try_catch, click; simpl.
  rewrite lookup_insert_eq. simpl. rewrite H1, H2. split.
  - now rewrite delete_insert_eq, delete_empty.
  - simpl. rewrite filter_cons, filter_nil.
    rewrite decide_False; [reflexivity|].
    unfold anchor_eqb. simpl. rewrite Nat.eqb_refl. discriminate.
Qed.

Lemma no_generation_pending (l : list request) :
  length (List.filter is_generation l) = 0 ->
  Forall (fun r => is_generation r = false) l.
Proof.
  induction l as [|r l IH]; simpl; [constructor|].
  destruct (is_generation r) eqn:E; simpl; [discriminate|].
  intros H. constructor; auto.
Qed.

Lemma housekeeping_init : housekeeping init.
Proof. repeat split; constructor. Qed.

Lemma housekeeping_generateImage (w : World) :
  housekeeping w -> housekeeping (generateImage w).
Proof.
  intros (H1 & H2 & H3 & H4). unfold generateImage.
  destruct (truthy (trim (prompt (ui w)))); simpl.
  - unfold housekeeping; simpl. repeat split; auto.
    + apply Forall_app. split; [now apply H3 | now repeat constructor].
    + now apply H3.
    + apply Forall_app. split; [exact H4 | now repeat constructor].
  - unfold housekeeping; simpl. repeat split; auto; now apply H3.
Qed.

Lemma step_housekeeping (w w' : World) (e : event) :
  invariant w -> housekeeping w -> step w e = Some w' -> housekeeping w'.
Proof.
  intros (I1 & I2 & _) Hk. pose proof Hk as (H1 & H2 & H3 & H4).
  destruct e as [v|k| | |i s]; simpl.
  - destruct (isGenerating (ui w)) eqn:Hg; [discriminate|].
    intros [= <-]. unfold housekeeping; simpl. repeat split; auto; try now apply H3.
    unfold outstanding_generations in I1.
    apply no_generation_pending in I1.
    eapply Forall_impl; [exact I1|].
    intros [p|u]; simpl; [discriminate|auto].
  - destruct (isGenerating (ui w)) eqn:Hg; [discriminate|].
    intros [= <-]. unfold handleKeyPress. rewrite Hg.
    destruct (bool_decide (k = lit "Enter")); simpl; auto.
    now apply housekeeping_generateImage.
  - destruct (isGenerating (ui w) || _); [discriminate|].
    intros [= <-]. now apply housekeeping_generateImage.
  - unfold downloadImage.
    destruct (generatedImage (ui w)) as [g|] eqn:Hi; [|discriminate].
    intros [= <-]. unfold housekeeping; simpl. rewrite Hi.
    repeat split; auto; try discriminate.
    apply Forall_app. split; [exact H4 | now repeat constructor].
  - destruct (pending w !! i) as [[p|u]|] eqn:Hp; try discriminate; intros [= <-].
    + destruct (generateImage_resume_frame (settled i w) s) as (Fp & Fi & Fs).
      destruct (generateImage_resume_env (settled i w) s) as (Fo & Fd).
      unfold housekeeping. rewrite Fp, Fi, Fs, Fo, Fd.
      destruct (generation_succeeds s) as [d|] eqn:Hs.
      * rewrite (generateImage_resume_ok _ s d Hs). simpl.
        repeat split; auto; try discriminate. now apply Forall_delete.
      * rewrite (generateImage_resume_ko _ s Hs). simpl.
        repeat split; auto; try now apply H3. now apply Forall_delete.
    + destruct (generatedImage (ui w)) as [g|] eqn:Hi.
      2:{ specialize (I2 eq_refl). rewrite Forall_lookup in I2.
          specialize (I2 _ _ Hp). discriminate. }
      destruct (downloadImage_resume_frame (settled i w) s) as (Fp & Fi).
      destruct (downloadImage_resume_env (settled i w) s H1 H2) as (Fo & Fd).
      unfold housekeeping. rewrite Fp, Fi, Fo, Fd.
      destruct (download_succeeds s) as [b|] eqn:Hs.
      * destruct (downloadImage_resume_ok (settled i w) s b Hs) as [-> _].
        simpl. rewrite Hi.
        repeat split; auto; try discriminate. now apply Forall_delete.
      * destruct (downloadImage_resume_ko (settled i w) s Hs) as [-> _].
        simpl. rewrite Hi.
        repeat split; auto; try discriminate. now apply Forall_delete.
Qed.

Lemma exec_housekeeping (es : list event) : forall w w' : World,
  invariant w -> housekeeping w -> exec w es = Some w' -> housekeeping w'.
Proof.
  induction es as [|e es IH]; intros w w' Hi Hk; simpl.
  - now intros [= <-].
  - destruct (step w e) as [w1|] eqn:Hs; [|discriminate].
    apply IH; [exact (step_invariant _ _ _ Hi Hs) | exact (step_housekeeping _ _ _ Hi Hk Hs)].
Qed.

Lemma reachable_housekeeping (w : World) : reachable w -> housekeeping w.
Proof.
  intros [es H].
  exact (exec_housekeeping es _ _ invariant_init housekeeping_init H).
Qed.

End Housekeeping.

(** X4. Every generation request in flight carries the trimmed form of
    the prompt that is on display: the textarea is disabled while the
    request is pending, so the text cannot drift from what was sent. *)
Theorem pending_prompt_is_displayed (w : World) (i : nat) (p : jsstring) :
  reachable w ->
  pending w !! i = Some (GenerateRequest p) ->
  p = trim (prompt (ui w)) /\
  isGenerating (ui w) = true /\
  textarea_disabled (render (ui w)) = true.
Proof.
  intros Hr Hp.
  pose proof (reachable_invariant w Hr) as (I1 & _).
  pose proof (reachable_housekeeping w Hr) as (_ & _ & _ & H4).
  rewrite Forall_lookup in H4. specialize (H4 _ _ Hp). simpl in H4.
  assert (Hg : isGenerating (ui w) = true).
  { destruct (isGenerating (ui w)); [reflexivity|].
    unfold outstanding_generations in I1.
    apply no_generation_pending in I1.
    rewrite Forall_lookup in I1. specialize (I1 _ _ Hp). discriminate. }
  repeat split; auto.
Qed.

Lemma pending_prompt_is_displayed_witness :
  lit "a cat" = trim (prompt (ui (after download_during_generation))) /\
  isGenerating (ui (after download_during_generation)) = true /\
  textarea_disabled (render (ui (after download_during_generation))) = true.
Proof.
  apply (pending_prompt_is_displayed (after download_during_generation) 0 (lit "a cat")).
  - exists download_during_generation. vm_compute. reflexivity.
  - vm_compute. reflexivity.
Defined.

(** X6. Nothing is downloaded before an image exists: as long as no
    generation has succeeded the download button is not rendered, no
    image request has gone out and no file has been saved. *)
Theorem no_download_before_first_image (w : World) :
  reachable w ->
  generatedImage (ui w) = None ->
  step w ClickDownload = None /\
  downloadImage w = w /\
  Forall (fun r => is_generation r = true) (issued w) /\
  saved_files w = [].
Proof.
  intros Hr Hn.
  pose proof (reachable_housekeeping w Hr) as (_ & _ & H3 & _).
  destruct (H3 Hn) as [Hi Hs].
  simpl. unfold downloadImage. rewrite Hn. auto.
Qed.

Lemma no_download_before_first_image_witness :
  step (after [Change (lit "a cat"); ClickGenerate; Settle 0 refused]) ClickDownload = None /\
  downloadImage (after [Change (lit "a cat"); ClickGenerate; Settle 0 refused])
    = after [Change (lit "a cat"); ClickGenerate; Settle 0 refused] /\
  Forall (fun r => is_generation r = true)
    (issued (after [Change (lit "a cat"); ClickGenerate; Settle 0 refused])) /\
  saved_files (after [Change (lit "a cat"); ClickGenerate; Settle 0 refused]) = [].
Proof.
  apply (no_download_before_first_image
           (after [Change (lit "a cat"); ClickGenerate; Settle 0 refused])).
  - exists [Change (lit "a cat"); ClickGenerate; Settle 0 refused].
    vm_compute. reflexivity.
  - vm_compute. reflexivity.
Defined.

(** X7. [downloadImage] cleans up after itself: whenever the program is
    idle or waiting, no object URL is left registered (each one is
    revoked in the block that created it) and no download link is left
    in [document.body]. *)
Theorem browser_left_clean (w : World) :
  reachable w ->
  object_urls w = ∅ /\ document_body w = [].
Proof.
  intros Hr. pose proof (reachable_housekeeping w Hr) as (H1 & H2 & _). auto.
Qed.

Lemma browser_left_clean_witness :
  object_urls (after (download_during_generation ++ [Settle 1 image_bytes])) = ∅ /\
  document_body (after (download_during_generation ++ [Settle 1 image_bytes])) = [].
Proof.
  apply (browser_left_clean (after (download_during_generation ++ [Settle 1 image_bytes]))).
  exists (download_during_generation ++ [Settle 1 image_bytes]).
  vm_compute. reflexivity.
Defined.

Section Progress.

(** A settlement that goes through takes one request off the queue. *)
Lemma step_settlement_pending (w w' : World) (e : event) :
  is_settlement e = true ->
  step w e = Some w' ->
  S (length (pending w')) = length (pending w).
Proof.
  destruct e as [v|k| | |i s]; simpl; try discriminate. intros _.
  destruct (pending w !! i) as [r|] eqn:Hp; [|discriminate].
  assert (Hl : S (length (delete i (pending w))) = length (pending w)).
  { rewrite length_delete by eauto.
    apply lookup_lt_Some in Hp. lia. }
  destruct r as [p|u]; intros [= <-].
  - now destruct (generateImage_resume_frame (settled i w) s) as (-> & _).
  - now destruct (downloadImage_resume_frame (settled i w) s) as (-> & _).
Qed.

Lemma exec_settlements_pending (es : list event) : forall w w' : World,
  Forall (fun e => is_settlement e = true) es ->
  exec w es = Some w' ->
  length (pending w') + length es = length (pending w).
Proof.
  induction es as [|e es IH]; intros w w' Hall; simpl.
  - intros [= <-]. lia.
  - destruct (step w e) as [w1|] eqn:Hs; [|discriminate].
    intros He. inversion Hall as [|? ? He1 Hall']; subst.
    pose proof (step_settlement_pending w w1 e He1 Hs).
    pose proof (IH w1 w' Hall' He). lia.
Qed.

(** A pending request can always be settled, whichever it is and with
    any outcome. *)
Lemma settle_any (cs : list (nat * settlement)) : forall w : World,
  in_range (length (pending w)) cs = true ->
  exists w' : World, exec w (map settle_of cs) = Some w'.
Proof.
  induction cs as [|[i s] cs IH]; intros w Hr; simpl in *.
  - eauto.
  - apply andb_true_iff in Hr as [Hi Hr]. apply Nat.ltb_lt in Hi.
    destruct (pending w !! i) as [r|] eqn:Hp.
    2:{ apply lookup_ge_None in Hp. lia. }
    assert (Hs : exists w1, step w (Settle i s) = Some w1).
    { simpl. rewrite Hp. destruct r; eauto. }
    destruct Hs as [w1 Hs].
    pose proof (step_settlement_pending w w1 (Settle i s) eq_refl Hs) as Hl.
    simpl in Hs. rewrite Hp in Hs.
    replace (match r with
             | GenerateRequest _ => Some (generateImage_resume s (settled i w))
             | ImageRequest _ => Some (downloadImage_resume s (settled i w))
             end) with (Some w1) by (now destruct r).
    apply IH. rewrite <- Hl in Hr. exact Hr.
Qed.

End Progress.

(** X12. The component cannot get stuck: from every reachable state the
    environment can settle the pending requests, in any order and each
    with an outcome of its own; and once it has settled as many requests
    as were pending, in whatever order and with whatever outcomes,
    nothing is pending, [isGenerating] is false, the loading panel is
    gone and the textarea is enabled again. *)
Theorem settling_everything_unlocks (w : World) :
  reachable w ->
  (forall cs : list (nat * settlement),
     in_range (length (pending w)) cs = true ->
     exists w' : World, exec w (map settle_of cs) = Some w') /\
  (forall (es : list event) (w' : World),
     Forall (fun e => is_settlement e = true) es ->
     length es = length (pending w) ->
     exec w es = Some w' ->
     pending w' = [] /\
     isGenerating (ui w') = false /\
     loading_panel (render (ui w')) = false /\
     textarea_disabled (render (ui w')) = false).
Proof.
  intros Hr. split.
  - intros cs Hc. now apply settle_any.
  - intros es w' Hall Hl He.
    pose proof (exec_settlements_pending es w w' Hall He) as Hc.
    assert (Hp : pending w' = []).
    { destruct (pending w'); [reflexivity|]. simpl in Hc. lia. }
    split; [exact Hp|].
    pose proof (exec_invariant _ _ _ (reachable_invariant w Hr) He) as (I1 & _).
    unfold outstanding_generations in I1. rewrite Hp in I1. simpl in I1.
    assert (Hg : isGenerating (ui w') = false)
      by (destruct (isGenerating (ui w')); [discriminate|reflexivity]).
    simpl. rewrite Hg. auto.
Qed.

Lemma settling_everything_unlocks_witness :
  pending (after (download_during_generation ++ mixed_settlements)) = [] /\
  isGenerating (ui (after (download_during_generation ++ mixed_settlements))) = false /\
  loading_panel (render (ui (after (download_during_generation ++ mixed_settlements))))
    = false /\
  textarea_disabled (render (ui (after (download_during_generation ++ mixed_settlements))))
    = false.
Proof.
  assert (Hr : reachable (after download_during_generation)).
  { exists download_during_generation. vm_compute. reflexivity. }
  apply (proj2 (settling_everything_unlocks (after download_during_generation) Hr)
           mixed_settlements).
  - repeat constructor.
  - reflexivity.
  - vm_compute. reflexivity.
Defined.

Section RequestLog.

(** What one event adds to the log of requests. *)
Lemma step_issued (w w' : World) (e : event) :
  step w e = Some w' ->
  issued w' = issued w \/
  (truthy (trim (prompt (ui w))) = true /\
   issued w' = issued w ++ [GenerateRequest (trim (prompt (ui w)))]) \/
  (exists g : GeneratedImage,
     generatedImage (ui w) = Some g /\
     issued w' = issued w ++ [ImageRequest (Image.url g)]).
Proof.
  destruct e as [v|k| | |i s]; simpl.
  - destruct (isGenerating (ui w)); [discriminate|]. intros [= <-]. now left.
  - destruct (isGenerating (ui w)) eqn:E; [discriminate|].
    intros [= <-]. unfold handleKeyPress, generateImage. rewrite E.
    destruct (bool_decide (k = lit "Enter")); simpl; [|now left].
    destruct (truthy (trim (prompt (ui w)))); simpl; [right; left|left]; auto.
  - destruct (isGenerating (ui w) || _); [discriminate|].
    intros [= <-]. unfold generateImage.
    destruct (truthy (trim (prompt (ui w)))); simpl; [right; left|left]; auto.
  - unfold downloadImage.
    destruct (generatedImage (ui w)) as [g|]; [|discriminate].
    intros [= <-]. right; right. exists g. auto.
  - destruct (pending w !! i) as [[p|u]|]; try discriminate; intros [= <-]; left.
    + now destruct (generateImage_resume_frame (settled i w) s) as (_ & -> & _).
    + now destruct (downloadImage_resume_frame (settled i w) s) as (_ & ->).
Qed.

End RequestLog.

(** X11. The backend is never sent a blank prompt: every generation
    request the program has issued, by button or by Enter, carries a
    non-empty prompt that has no whitespace left to trim. *)
Theorem backend_never_gets_blank_prompt (w : World) (p : jsstring) :
  reachable w ->
  In (GenerateRequest p) (issued w) ->
  p <> [] /\ trim p = p /\ ~ whitespace_only p.
Proof.
  intros [es He]. revert p.
  enough (H : forall (es : list event) (w0 w : World),
             exec w0 es = Some w ->
             (forall p, In (GenerateRequest p) (issued w0) -> truthy p = true /\ trim p = p) ->
             forall p, In (GenerateRequest p) (issued w) -> truthy p = true /\ trim p = p).
  { intros p Hin.
    destruct (H es init w He (fun p (F : In _ []) => match F with end) p Hin) as [Ht Hi].
    repeat split; auto.
    - intros ->. discriminate.
    - intros Hb. apply truthy_trim_false in Hb. congruence. }
  clear. induction es as [|e es IH]; intros w0 w; simpl.
  - intros [= <-] H. exact H.
  - destruct (step w0 e) as [w1|] eqn:Hs; [|discriminate].
    intros He H0. apply (IH w1 w He).
    intros p Hin.
    destruct (step_issued w0 w1 e Hs) as [E | [[Ht E] | [g [_ E]]]];
      rewrite E in Hin; auto.
    + apply in_app_or in Hin as [Hin | [[= <-] | []]]; auto.
      split; [exact Ht | apply trim_idempotent].
    + apply in_app_or in Hin as [Hin | [Hin | []]]; auto. discriminate.
Qed.

Lemma backend_never_gets_blank_prompt_witness :
  lit "a cat" <> [] /\ trim (lit "a cat") = lit "a cat" /\ ~ whitespace_only (lit "a cat").
Proof.
  apply (backend_never_gets_blank_prompt (after download_during_generation) (lit "a cat")).
  - exists download_during_generation. vm_compute. reflexivity.
  - vm_compute. auto.
Defined.
